(** * Radius normalisation of the bus-stop viewer

    Shallow embedding of [compute_radius_from_series] from
    [avl_bus_proj/folium_example.py], of the tooltip and popup texts of
    the page script of the same file, and the properties of their
    specification.

    The function is embedded twice.

    The first embedding reads its arithmetic exactly: a cell is
    [Some x] for a finite real number [x] and [None] for NaN.  It
    serves the properties that do not depend on how the machine
    rounds: which cells are filled and with what, which branch is
    taken, what a constant batch gets, how positions correspond.  It
    says nothing of rounding, overflow, infinite cells or integer
    columns.  [np.log1p x] is [ln (1 + x)].

    The pandas operations are embedded with their documented behaviour
    on a float series: [median], [quantile], [min] and [max] skip NaN
    and are NaN on an empty series, [quantile] interpolates linearly
    between order statistics, [clip] ignores a NaN bound.

    The second embedding, [F64], is the function on binary64 cells
    with the machine's own arithmetic; it shows where the computed
    radii leave what the exact reading promises.

    In the page script a text is a sequence of bytes and the text
    [str(r[c])] of a cell is a field of the row.  [load_data], the map
    widget and its markers are outside the embedding. *)

From Stdlib Require Import PrimFloat.
From Stdlib Require Import Reals Lra Lia List String Ascii Bool ZArith.
From Stdlib Require Import Sorted Permutation.
Import ListNotations.
Local Open Scope R_scope.

(** ** Scalars *)

Definition float := option R.
Definition NaN : float := None.

Definition Rltb (x y : R) : bool := if Rlt_dec x y then true else false.
Definition Rleb (x y : R) : bool := if Rle_dec x y then true else false.
Definition Reqb (x y : R) : bool := if Req_dec_T x y then true else false.

(** NaN propagates through arithmetic. *)
Definition fadd (a b : float) : float :=
  match a, b with Some x, Some y => Some (x + y) | _, _ => NaN end.
Definition fsub (a b : float) : float :=
  match a, b with Some x, Some y => Some (x - y) | _, _ => NaN end.
Definition fmul (a b : float) : float :=
  match a, b with Some x, Some y => Some (x * y) | _, _ => NaN end.

(** A quotient by zero is not a finite number; the model gives it no
    value, so a result [Some _] shows the division was a proper one. *)
Definition fdiv (a b : float) : float :=
  match a, b with
  | Some x, Some y => if Reqb y 0 then NaN else Some (x / y)
  | _, _ => NaN
  end.

(** [a > y]: any comparison with NaN is false. *)
Definition fgt (a : float) (y : R) : bool :=
  match a with Some x => Rltb y x | None => false end.

(** [np.log1p]: log(1 + x), finite for x > -1 only. *)
Definition log1p (a : float) : float :=
  match a with
  | Some x => if Rltb (-1) x then Some (ln (1 + x)) else NaN
  | None => NaN
  end.

(** Truth value of a Python number: zero is false. *)
Definition truthy (x : R) : bool := negb (Reqb x 0).

(** ** The pandas Series operations the function uses *)

Module Series.

Definition t := list float.

Fixpoint dropna (s : t) : list R :=
  match s with
  | [] => []
  | Some x :: s' => x :: dropna s'
  | None :: s' => dropna s'
  end.

Fixpoint insert (x : R) (l : list R) : list R :=
  match l with
  | [] => [x]
  | y :: l' => if Rle_dec x y then x :: l else y :: insert x l'
  end.

Definition sort (l : list R) : list R := fold_right insert [] l.

(** Median of a list of numbers: the middle order statistic, or the
    mean of the two middle ones; undefined on the empty list. *)
Definition median_of (l : list R) : float :=
  let a := sort l in
  let n := List.length a in
  match n with
  | O => NaN
  | S _ =>
      if Nat.even n
      then Some ((nth (n / 2 - 1) a 0 + nth (n / 2) a 0) / 2)
      else Some (nth (n / 2) a 0)
  end.

(** [s.median()]: NaN cells are skipped. *)
Definition median (s : t) : float := median_of (dropna s).

(** [s.fillna(v)] *)
Definition fillna (s : t) (v : R) : t :=
  map (fun c => match c with Some x => Some x | None => Some v end) s.

(** Quantile of a list of numbers with linear interpolation between
    the order statistics at floor((n-1)q) and the next one. *)
Definition quantile_of (l : list R) (q : R) : float :=
  let a := sort l in
  match a with
  | [] => NaN
  | _ :: _ =>
      let n := List.length a in
      let h := INR (n - 1) * q in
      let j := Z.to_nat (Int_part h) in
      let g := h - IZR (Int_part h) in
      let lo := nth j a 0 in
      let hi := nth (Nat.min (j + 1) (n - 1)) a 0 in
      Some (lo + (hi - lo) * g)
  end.

(** [s.quantile(q)]: NaN cells are skipped. *)
Definition quantile (s : t) (q : R) : float := quantile_of (dropna s) q.

(** Bounds as [clip] uses them: a NaN bound is no bound, two numeric
    bounds are put in order. *)
Definition clip_bounds (lower upper : float) : float * float :=
  match lower, upper with
  | Some l, Some u => (Some (Rmin l u), Some (Rmax l u))
  | _, _ => (lower, upper)
  end.

Definition clip_value (bounds : float * float) (x : R) : R :=
  let r := match fst bounds with
           | Some l => if Rleb l x then x else l
           | None => x
           end in
  match snd bounds with
  | Some u => if Rleb x u then r else u
  | None => r
  end.

(** [s.clip(lower, upper)]: a NaN cell stays NaN. *)
Definition clip (s : t) (lower upper : float) : t :=
  map (option_map (clip_value (clip_bounds lower upper))) s.

Fixpoint min_of (l : list R) : float :=
  match l with
  | [] => NaN
  | x :: l' => match min_of l' with
               | None => Some x
               | Some m => Some (Rmin x m)
               end
  end.

Fixpoint max_of (l : list R) : float :=
  match l with
  | [] => NaN
  | x :: l' => match max_of l' with
               | None => Some x
               | Some m => Some (Rmax x m)
               end
  end.

(** [s.min()], [s.max()]: NaN skipped, NaN on an empty series. *)
Definition min (s : t) : float := min_of (dropna s).
Definition max (s : t) : float := max_of (dropna s).

(** Series-with-scalar arithmetic, element by element. *)
Definition sub (s : t) (v : float) : t := map (fun c => fsub c v) s.
Definition div (s : t) (v : float) : t := map (fun c => fdiv c v) s.

End Series.

Definition zeros_like (s : Series.t) : Series.t := map (fun _ => Some 0) s.
Definition full_like (s : Series.t) (v : R) : Series.t := map (fun _ => Some v) s.

(** ** Input cells and coercion *)

(** A cell of the incoming column: a number, or anything that
    [pd.to_numeric(..., errors="coerce")] turns into NaN. *)
Inductive cell : Type :=
| Number (x : R)
| Missing.

Definition to_numeric (series : list cell) : Series.t :=
  map (fun c => match c with Number x => Some x | Missing => NaN end) series.

(** ** The function *)

(** The guard [clip_pct and 0 < clip_pct < 50]. *)
Definition clip_enabled (clip_pct : R) : bool :=
  truthy clip_pct && (Rltb 0 clip_pct && Rltb clip_pct 50).

(** Missing cells take the median of the others, or 0 when the median
    is NaN. *)
Definition impute (s : Series.t) : Series.t :=
  Series.fillna s (match Series.median s with Some m => m | None => 0 end).

(** The body of the clipping step. *)
Definition winsorize (s : Series.t) (clip_pct : R) : Series.t :=
  let lo := Series.quantile s (clip_pct / 100) in
  let hi := Series.quantile s (1 - clip_pct / 100) in
  Series.clip s lo hi.

(** The two normalisations; any scale other than "log" is handled by
    the else branch. *)
Definition normalize (s : Series.t) (scale : string) : Series.t :=
  if String.eqb scale "log" then
    let shifted := Series.sub s (Series.min s) in
    let norm := map log1p shifted in
    let maxv := Series.max norm in
    if fgt maxv 0 then Series.div norm maxv else zeros_like norm
  else
    let denom := fsub (Series.max s) (Series.min s) in
    if fgt denom 0
    then Series.div (Series.sub s (Series.min s)) denom
    else full_like s (1 / 2).

Definition compute_radius_from_series
    (series : list cell) (scale : string) (min_r max_r clip_pct : R)
    : Series.t :=
  (* s = pd.to_numeric(series, errors="coerce") *)
  let s := to_numeric series in
  (* s = s.fillna(s.median() if not np.isnan(s.median()) else 0) *)
  let s := impute s in
  (* if clip_pct and 0 < clip_pct < 50: s = s.clip(lo, hi) *)
  let s := if clip_enabled clip_pct then winsorize s clip_pct else s in
  (* if scale == "log": ... else: ... *)
  let norm := normalize s scale in
  (* return (min_r + norm * (max_r - min_r)).astype(float) *)
  map (fun n => fadd (Some min_r) (fmul n (Some (max_r - min_r)))) norm.

(** The same function with the clipping step left out. *)
Definition compute_radius_without_clipping
    (series : list cell) (scale : string) (min_r max_r : R) : Series.t :=
  let s := to_numeric series in
  let s := impute s in
  let norm := normalize s scale in
  map (fun n => fadd (Some min_r) (fmul n (Some (max_r - min_r)))) norm.

(** ** The function cell by cell

    After imputation no cell is NaN, so the whole computation can be
    read on plain numbers: three per-cell maps whose parameters are
    statistics of the batch. *)

Fixpoint numbers (series : list cell) : list R :=
  match series with
  | [] => []
  | Number x :: l => x :: numbers l
  | Missing :: l => numbers l
  end.

Definition fill_value (series : list cell) : R :=
  match Series.median_of (numbers series) with Some m => m | None => 0 end.

Definition imputed_value (fill : R) (c : cell) : R :=
  match c with Number x => x | Missing => fill end.

Definition imputed (series : list cell) : list R :=
  map (imputed_value (fill_value series)) series.

Definition winsor_bounds (v : list R) (clip_pct : R) : float * float :=
  if clip_enabled clip_pct
  then Series.clip_bounds (Series.quantile_of v (clip_pct / 100))
                          (Series.quantile_of v (1 - clip_pct / 100))
  else (NaN, NaN).

Definition clipped (v : list R) (clip_pct : R) : list R :=
  map (Series.clip_value (winsor_bounds v clip_pct)) v.

Definition norm_value (scale : string) (w : list R) (x : R) : R :=
  if String.eqb scale "log" then
    match Series.min_of w with
    | Some m =>
        match Series.max_of (map (fun y => ln (1 + (y - m))) w) with
        | Some maxv => if Rltb 0 maxv then ln (1 + (x - m)) / maxv else 0
        | None => 0
        end
    | None => 0
    end
  else
    match Series.min_of w, Series.max_of w with
    | Some m, Some M => if Rltb 0 (M - m) then (x - m) / (M - m) else 1 / 2
    | _, _ => 1 / 2
    end.

Definition radius_value (min_r max_r n : R) : R := min_r + n * (max_r - min_r).

(** Bounds that do not cross. *)
Definition bounds_ordered (b : float * float) : Prop :=
  match b with
  | (Some l, Some u) => l <= u
  | _ => True
  end.

(** The radius of one cell, given the batch it belongs to. *)
Definition cell_radius (series : list cell) (scale : string)
    (min_r max_r clip_pct : R) (c : cell) : float :=
  let v := imputed series in
  Some (radius_value min_r max_r
          (norm_value scale (clipped v clip_pct)
             (Series.clip_value (winsor_bounds v clip_pct)
                (imputed_value (fill_value series) c)))).

(** Writing the fill value into the missing cells. *)
Definition fill_missing (m : R) (c : cell) : cell :=
  match c with Number x => Number x | Missing => Number m end.

(** Strict order on cells; nothing is below or above NaN. *)
Definition float_lt (a b : float) : Prop :=
  match a, b with
  | Some x, Some y => x < y
  | _, _ => False
  end.

(** The batch of the specification's clipping example. *)
Definition outlier_batch : list cell := [Number 1; Number 2; Number 3; Number 100].

(** The batch of the specification's imputation example. *)
Definition gap_batch : list cell := [Number 10; Number 20; Missing; Number 30].

(** A batch of equal numbers with a gap. *)
Definition flat_batch : list cell := [Number 5; Number 5; Missing; Number 5].

(** ** Constant batches *)

(** The radius every cell of a constant batch gets. *)
Definition flat_radius (scale : string) (min_r max_r : R) : R :=
  if String.eqb scale "log" then min_r else (min_r + max_r) / 2.

(** ** The page script: tooltip and popup texts

    For every row the script builds a tooltip and a popup from the
    columns it shows, the size column and the street-view address,
    escaping the text of the cells. *)

Definition SIZE_COL : string := "rider_total".
(** The double quote character. *)
Definition dquote_char : ascii := Ascii.ascii_of_nat 34.
Definition dquote : string := String dquote_char EmptyString.

(** [s.replace(old, new)] for a one-character [old]. *)
Fixpoint replace_char (old : ascii) (new : string) (s : string) : string :=
  match s with
  | EmptyString => EmptyString
  | String a s' =>
      if Ascii.eqb a old
      then (new ++ replace_char old new s')%string
      else String a (replace_char old new s')
  end.

(** [html.escape(s)], quotes included: five replacements, the
    ampersand first. *)
Definition html_escape (s : string) : string :=
  let s := replace_char "&" "&amp;" s in
  let s := replace_char "<" "&lt;" s in
  let s := replace_char ">" "&gt;" s in
  let s := replace_char dquote_char "&quot;" s in
  replace_char "'" "&#x27;" s.

(** A row of the table: its coordinates, its street-view link, its
    cell of the size column as [pd.to_numeric] reads it, and the text
    [str(r[c])] of its cell in column [c]. *)
Record row : Type := {
  lat : R;
  lon : R;
  streetview_url : string;
  size : cell;
  str_of : string -> string
}.

(** [c in gdf.columns] *)
Definition has_column (cols : list string) (c : string) : bool :=
  existsb (String.eqb c) cols.

Definition candidate_cols : list string :=
  ["StopID"; "StopName"; "Routes"; "Direction"; "OnStreet"; "AtStreet"]%string.

Definition display_cols (cols : list string) : list string :=
  filter (has_column cols) candidate_cols.

(** One labelled line, [<b>label</b>: text], both escaped. *)
Definition bold_line (label text : string) : string :=
  ("<b>" ++ html_escape label ++ "</b>: " ++ html_escape text)%string.

Definition tooltip_lines (cols : list string) (r : row) : list string :=
  map (fun c => bold_line c (str_of r c)) (display_cols cols)
  ++ [bold_line SIZE_COL (str_of r SIZE_COL)].

Definition tooltip_html (cols : list string) (r : row) : string :=
  String.concat "<br>" (tooltip_lines cols r).

Definition street_view_link (r : row) : string :=
  ("<a href=" ++ dquote ++ streetview_url r ++ dquote
   ++ " target=" ++ dquote ++ "_blank" ++ dquote
   ++ " rel=" ++ dquote ++ "noopener" ++ dquote
   ++ ">Open Google Street View</a>")%string.

Definition popup_lines (cols : list string) (r : row) : list string :=
  (if has_column cols "StopName"
   then [("<b>" ++ html_escape (str_of r "StopName") ++ "</b>")%string]
   else [])
  ++ map (fun c => bold_line c (str_of r c))
         (filter (fun c => negb (String.eqb c "StopName")) (display_cols cols))
  ++ [bold_line SIZE_COL (str_of r SIZE_COL)]
  ++ [street_view_link r].

Definition popup_html (cols : list string) (r : row) : string :=
  String.concat "<br>" (popup_lines cols r).

(** Occurrences of a character in a text. *)
Fixpoint count_char (c : ascii) (s : string) : nat :=
  match s with
  | EmptyString => 0
  | String a s' => (if Ascii.eqb a c then 1 else 0) + count_char c s'
  end.

(** The characters that open or close markup and attribute values. *)
Definition is_markup (c : ascii) : bool :=
  Ascii.eqb c "<" || Ascii.eqb c ">" || Ascii.eqb c dquote_char
  || Ascii.eqb c "'".

(** ** The function in binary64

    The same function on [float64] cells as the machine computes it:
    IEEE 754 double precision with rounding, infinities and NaN.  A
    cell is what [pd.to_numeric] made of it, so a text such as "inf" is
    the infinite cell.  Two library results are not recomputed here and
    are taken as they come: [np.log1p] of a cell and [Series.quantile]
    of a series. *)

Module F64.

Definition t := list PrimFloat.float.

Definition dropna (s : t) : t := filter (fun x => negb (is_nan x)) s.

Fixpoint insert (x : PrimFloat.float) (l : t) : t :=
  match l with
  | [] => [x]
  | y :: l' => if (x <=? y)%float then x :: l else y :: insert x l'
  end.

Definition sort (l : t) : t := fold_right insert [] l.

(** [s.median()]: NaN cells skipped, NaN when nothing is left. *)
Definition median (s : t) : PrimFloat.float :=
  let a := sort (dropna s) in
  let n := List.length a in
  match n with
  | O => nan
  | S _ =>
      if Nat.even n
      then ((nth (n / 2 - 1) a nan + nth (n / 2) a nan) / 2)%float
      else nth (n / 2) a nan
  end.

(** [s.fillna(v)] *)
Definition fillna (s : t) (v : PrimFloat.float) : t :=
  map (fun x => if is_nan x then v else x) s.

(** [s.min()], [s.max()]: NaN cells skipped, NaN on an empty series. *)
Definition min (s : t) : PrimFloat.float :=
  match dropna s with
  | [] => nan
  | x :: l => fold_left (fun m y => if (y <? m)%float then y else m) l x
  end.

Definition max (s : t) : PrimFloat.float :=
  match dropna s with
  | [] => nan
  | x :: l => fold_left (fun m y => if (m <? y)%float then y else m) l x
  end.

(** [s.clip(lower, upper)]: a NaN bound is ignored, two numeric bounds
    are put in order, a NaN cell stays NaN. *)
Definition clip (s : t) (lower upper : PrimFloat.float) : t :=
  let both := negb (is_nan lower) && negb (is_nan upper) in
  let lo := if both && (upper <? lower)%float then upper else lower in
  let hi := if both && (upper <? lower)%float then lower else upper in
  map (fun x =>
         if is_nan x then x
         else
           let r := if is_nan lo then x
                    else if (lo <=? x)%float then x else lo in
           if is_nan hi then r
           else if (x <=? hi)%float then r else hi) s.

(** The guard [clip_pct and 0 < clip_pct < 50]. *)
Definition clip_enabled (clip_pct : PrimFloat.float) : bool :=
  negb (clip_pct =? 0)%float
  && ((0 <? clip_pct)%float && (clip_pct <? 50)%float).

Definition impute (s : t) : t :=
  fillna s (if is_nan (median s) then 0%float else median s).

Definition winsorize (quantile : t -> PrimFloat.float -> PrimFloat.float)
    (s : t) (clip_pct : PrimFloat.float) : t :=
  let lo := quantile s (clip_pct / 100)%float in
  let hi := quantile s (1 - clip_pct / 100)%float in
  clip s lo hi.

Definition normalize (log1p : PrimFloat.float -> PrimFloat.float)
    (s : t) (scale : string) : t :=
  if String.eqb scale "log" then
    let shifted := map (fun x => (x - min s)%float) s in
    let norm := map log1p shifted in
    let maxv := max norm in
    if (0 <? maxv)%float
    then map (fun x => (x / maxv)%float) norm
    else map (fun _ => 0%float) norm
  else
    let denom := (max s - min s)%float in
    if (0 <? denom)%float
    then map (fun x => ((x - min s) / denom)%float) s
    else map (fun _ => 0.5%float) s.

Definition compute_radius_from_series
    (log1p : PrimFloat.float -> PrimFloat.float)
    (quantile : t -> PrimFloat.float -> PrimFloat.float)
    (series : t) (scale : string)
    (min_r max_r clip_pct : PrimFloat.float) : t :=
  let s := impute series in
  let s := if clip_enabled clip_pct then winsorize quantile s clip_pct else s in
  let norm := normalize log1p s scale in
  map (fun n => (min_r + n * (max_r - min_r))%float) norm.

End F64.

(** The batch 1, inf, 3 and the batch 1, 2, 3 in binary64. *)
Definition infinite_batch : F64.t := [1; PrimFloat.infinity; 3]%float.
Definition plain_batch : F64.t := [1; 2; 3]%float.

(** 0.3 and 0.9 as binary64 has them. *)
Definition three_tenths : PrimFloat.float := 0x1.3333333333333p-2%float.
Definition nine_tenths : PrimFloat.float := 0x1.ccccccccccccdp-1%float.

(** ** Booleans of the real order *)

Lemma Rltb_true x y : Rltb x y = true <-> x < y.
Proof. unfold Rltb; destruct (Rlt_dec x y); split; auto; discriminate. Qed.

Lemma Rltb_false x y : Rltb x y = false <-> y <= x.
Proof.
  unfold Rltb; destruct (Rlt_dec x y); split; intro; auto; try lra; discriminate.
Qed.

Lemma Rleb_true x y : Rleb x y = true <-> x <= y.
Proof. unfold Rleb; destruct (Rle_dec x y); split; auto; discriminate. Qed.

Lemma Rleb_false x y : Rleb x y = false <-> y < x.
Proof.
  unfold Rleb; destruct (Rle_dec x y); split; intro; auto; try lra; discriminate.
Qed.

Lemma Reqb_true x y : Reqb x y = true <-> x = y.
Proof. unfold Reqb; destruct (Req_dec_T x y); split; auto; discriminate. Qed.

Lemma Reqb_false x y : Reqb x y = false <-> x <> y.
Proof.
  unfold Reqb; destruct (Req_dec_T x y); split; intro; auto; try congruence;
    discriminate.
Qed.

(** Decide a boolean test of the order on the spot, keeping the fact. *)
Ltac rbool :=
  repeat match goal with
    | |- context [Rltb ?a ?b] =>
        let H := fresh "Hlt" in
        destruct (Rltb a b) eqn:H;
        [apply Rltb_true in H | apply Rltb_false in H]
    | |- context [Rleb ?a ?b] =>
        let H := fresh "Hle" in
        destruct (Rleb a b) eqn:H;
        [apply Rleb_true in H | apply Rleb_false in H]
    | |- context [Reqb ?a ?b] =>
        let H := fresh "Heq" in
        destruct (Reqb a b) eqn:H;
        [apply Reqb_true in H | apply Reqb_false in H]
    end.

(** ** Series of numbers only *)

Lemma dropna_map_Some (v : list R) : Series.dropna (map Some v) = v.
Proof. induction v as [|x v IH]; simpl; [reflexivity | now rewrite IH]. Qed.

Lemma dropna_to_numeric (series : list cell) :
  Series.dropna (to_numeric series) = numbers series.
Proof.
  induction series as [|[x|] l IH]; simpl; auto.
  now rewrite <- IH.
Qed.

Lemma map_Some_ext_in (f : float -> float) (g : R -> R) (v : list R) :
  (forall x, In x v -> f (Some x) = Some (g x)) ->
  map f (map Some v) = map Some (map g v).
Proof.
  intro H. rewrite !map_map. apply map_ext_in. exact H.
Qed.

Lemma impute_to_numeric (series : list cell) :
  impute (to_numeric series) = map Some (imputed series).
Proof.
  unfold impute, imputed, fill_value, Series.fillna, Series.median, to_numeric.
  rewrite !map_map.
  change (map (fun c => match c with Number x => Some x | Missing => NaN end) series)
    with (to_numeric series).
  rewrite dropna_to_numeric.
  apply map_ext. intros [x|]; reflexivity.
Qed.

Lemma winsorize_map_Some (v : list R) (clip_pct : R) :
  (if clip_enabled clip_pct then winsorize (map Some v) clip_pct else map Some v)
  = map Some (clipped v clip_pct).
Proof.
  unfold clipped, winsor_bounds, winsorize, Series.clip, Series.quantile.
  rewrite dropna_map_Some.
  destruct (clip_enabled clip_pct).
  - now apply map_Some_ext_in.
  - rewrite map_map. apply map_ext. reflexivity.
Qed.

(** ** Minimum and maximum of a batch *)

Lemma min_of_spec (w : list R) :
  w <> [] ->
  exists m, Series.min_of w = Some m /\ In m w /\ forall x, In x w -> m <= x.
Proof.
  induction w as [|x w IH]; [congruence | intros _].
  destruct w as [|y w'].
  - exists x. simpl. repeat split; auto.
    intros z [<-|[]]. apply Rle_refl.
  - destruct IH as (m & Hm & Hin & Hle); [discriminate|].
    exists (Rmin x m). split; [|split].
    + change (Series.min_of (x :: y :: w'))
        with (match Series.min_of (y :: w') with
              | None => Some x | Some m => Some (Rmin x m) end).
      now rewrite Hm.
    + unfold Rmin. destruct (Rle_dec x m); [now left | now right].
    + intros z [<-|Hz]; [apply Rmin_l|].
      apply Rle_trans with m; [apply Rmin_r | now apply Hle].
Qed.

Lemma max_of_spec (w : list R) :
  w <> [] ->
  exists M, Series.max_of w = Some M /\ In M w /\ forall x, In x w -> x <= M.
Proof.
  induction w as [|x w IH]; [congruence | intros _].
  destruct w as [|y w'].
  - exists x. simpl. repeat split; auto.
    intros z [<-|[]]. apply Rle_refl.
  - destruct IH as (M & HM & Hin & Hle); [discriminate|].
    exists (Rmax x M). split; [|split].
    + change (Series.max_of (x :: y :: w'))
        with (match Series.max_of (y :: w') with
              | None => Some x | Some m => Some (Rmax x m) end).
      now rewrite HM.
    + unfold Rmax. destruct (Rle_dec x M); [now right | now left].
    + intros z [<-|Hz]; [apply Rmax_l|].
      apply Rle_trans with M; [now apply Hle | apply Rmax_r].
Qed.

Lemma min_map_Some (w : list R) : Series.min (map Some w) = Series.min_of w.
Proof. unfold Series.min. now rewrite dropna_map_Some. Qed.

Lemma max_map_Some (w : list R) : Series.max (map Some w) = Series.max_of w.
Proof. unfold Series.max. now rewrite dropna_map_Some. Qed.

(** ** Normalisation on numbers *)

Lemma ln1p_nonneg (t : R) : 0 <= t -> 0 <= ln (1 + t).
Proof.
  intros [Ht | <-].
  - rewrite <- ln_1. left. apply ln_increasing; lra.
  - rewrite Rplus_0_r, ln_1. apply Rle_refl.
Qed.

Lemma ln1p_mono (s t : R) : 0 <= s -> s <= t -> ln (1 + s) <= ln (1 + t).
Proof.
  intros Hs [Hst | <-]; [|apply Rle_refl].
  left. apply ln_increasing; lra.
Qed.

Lemma normalize_map_Some (w : list R) (scale : string) :
  normalize (map Some w) scale = map Some (map (norm_value scale w) w).
Proof.
  destruct w as [|x0 w0]; [unfold normalize; destruct (String.eqb _ _); reflexivity|].
  set (w := x0 :: w0).
  assert (Hne : w <> []) by discriminate.
  destruct (min_of_spec w Hne) as (m & Hm & Hmin & Hmle).
  destruct (max_of_spec w Hne) as (M & HM & HMin & HMle).
  unfold normalize, norm_value.
  rewrite min_map_Some, max_map_Some, Hm, HM.
  destruct (String.eqb scale "log").
  - (* log *)
    assert (Hlog : map log1p (Series.sub (map Some w) (Some m))
                   = map Some (map (fun y => ln (1 + (y - m))) w)).
    { unfold Series.sub. rewrite map_map. apply map_Some_ext_in.
      intros x Hx. simpl. specialize (Hmle x Hx).
      rbool; [reflexivity | lra]. }
    rewrite Hlog, max_map_Some.
    destruct (max_of_spec (map (fun y => ln (1 + (y - m))) w)) as (L & HL & _ & _);
      [discriminate|].
    rewrite HL. simpl fgt.
    destruct (Rltb 0 L) eqn:HltL.
    + apply Rltb_true in HltL.
      unfold Series.div. rewrite !map_map. apply map_ext.
      intros x. simpl. rbool; [lra | reflexivity].
    + unfold zeros_like. rewrite !map_map. reflexivity.
  - (* linear *)
    simpl fsub. simpl fgt.
    destruct (Rltb 0 (M - m)) eqn:Hlt.
    + apply Rltb_true in Hlt.
      unfold Series.div, Series.sub. rewrite !map_map. apply map_ext.
      intros x. simpl. rbool; [lra | reflexivity].
    + unfold full_like. rewrite !map_map. reflexivity.
Qed.

(** The whole function, read on numbers. *)
Lemma compute_radius_cells (series : list cell) (scale : string)
    (min_r max_r clip_pct : R) :
  compute_radius_from_series series scale min_r max_r clip_pct
  = map Some
      (map (fun x => radius_value min_r max_r
                       (norm_value scale (clipped (imputed series) clip_pct) x))
           (clipped (imputed series) clip_pct)).
Proof.
  unfold compute_radius_from_series.
  rewrite impute_to_numeric, winsorize_map_Some, normalize_map_Some.
  rewrite !map_map. reflexivity.
Qed.

(** ** Order properties of the three per-cell maps *)

Lemma div_unit (a L : R) : 0 <= a <= L -> 0 < L -> 0 <= a / L <= 1.
Proof.
  intros [Ha HaL] HL.
  assert (Hi : 0 < / L) by now apply Rinv_0_lt_compat.
  unfold Rdiv. split.
  - apply Rmult_le_pos; lra.
  - replace 1 with (L * / L) by (apply Rinv_r; lra).
    apply Rmult_le_compat_r; lra.
Qed.

Lemma div_mono (a b L : R) : a <= b -> 0 < L -> a / L <= b / L.
Proof.
  intros Hab HL.
  assert (Hi : 0 < / L) by now apply Rinv_0_lt_compat.
  unfold Rdiv. apply Rmult_le_compat_r; lra.
Qed.

Lemma norm_value_bounds (scale : string) (w : list R) (x : R) :
  In x w -> 0 <= norm_value scale w x <= 1.
Proof.
  intro Hx.
  assert (Hne : w <> []) by (intros ->; inversion Hx).
  destruct (min_of_spec w Hne) as (m & Hm & _ & Hmle).
  destruct (max_of_spec w Hne) as (M & HM & _ & HMle).
  unfold norm_value. rewrite Hm, HM.
  destruct (String.eqb scale "log").
  - destruct (max_of_spec (map (fun y => ln (1 + (y - m))) w)) as (L & HL & _ & HLle).
    { intro E. apply map_eq_nil in E. contradiction. }
    rewrite HL. rbool; [|lra].
    apply div_unit; [split|assumption].
    + apply ln1p_nonneg. specialize (Hmle x Hx). lra.
    + apply HLle. apply (in_map (fun y => ln (1 + (y - m)))). exact Hx.
  - rbool; [|lra].
    specialize (Hmle x Hx). specialize (HMle x Hx).
    apply div_unit; lra.
Qed.

Lemma norm_value_mono (scale : string) (w : list R) (x y : R) :
  In x w -> x <= y -> norm_value scale w x <= norm_value scale w y.
Proof.
  intros Hx Hxy.
  assert (Hne : w <> []) by (intros ->; inversion Hx).
  destruct (min_of_spec w Hne) as (m & Hm & _ & Hmle).
  unfold norm_value. rewrite Hm.
  destruct (String.eqb scale "log").
  - destruct (Series.max_of (map (fun y => ln (1 + (y - m))) w)) as [L|];
      [|apply Rle_refl].
    rbool; [|apply Rle_refl].
    apply div_mono; [|assumption].
    specialize (Hmle x Hx). apply ln1p_mono; lra.
  - destruct (Series.max_of w) as [M|]; [|apply Rle_refl].
    rbool; [|apply Rle_refl].
    apply div_mono; lra.
Qed.

Lemma clip_bounds_ordered (lower upper : float) :
  bounds_ordered (Series.clip_bounds lower upper).
Proof.
  destruct lower as [l|], upper as [u|]; simpl; auto.
  apply Rle_trans with l; [apply Rmin_l | apply Rmax_l].
Qed.

Lemma winsor_bounds_ordered (v : list R) (clip_pct : R) :
  bounds_ordered (winsor_bounds v clip_pct).
Proof.
  unfold winsor_bounds. destruct (clip_enabled clip_pct); simpl; auto.
  apply clip_bounds_ordered.
Qed.

Lemma clip_value_mono (b : float * float) (x y : R) :
  bounds_ordered b -> x <= y ->
  Series.clip_value b x <= Series.clip_value b y.
Proof.
  destruct b as [[l|] [u|]]; unfold Series.clip_value; simpl; intros Hb Hxy;
    rbool; lra.
Qed.

Lemma radius_value_bounds (min_r max_r n : R) :
  min_r <= max_r -> 0 <= n <= 1 ->
  min_r <= radius_value min_r max_r n <= max_r.
Proof. unfold radius_value. intros H [H0 H1]. split; nra. Qed.

Lemma radius_value_mono (min_r max_r n n' : R) :
  min_r <= max_r -> n <= n' ->
  radius_value min_r max_r n <= radius_value min_r max_r n'.
Proof. unfold radius_value. intros H Hn. nra. Qed.

(** ** Radii stay in range, in exact arithmetic *)

(** Read in exact arithmetic on finite cells, with [min_r <= max_r],
    every cell of the result is a number in the closed interval
    [[min_r, max_r]], for every batch, scale and clip_pct. *)
Theorem radius_in_range (series : list cell) (scale : string)
    (min_r max_r clip_pct : R) :
  min_r <= max_r ->
  Forall (fun c => exists r, c = Some r /\ min_r <= r <= max_r)
         (compute_radius_from_series series scale min_r max_r clip_pct).
Proof.
  intro Hr. rewrite compute_radius_cells.
  apply Forall_forall. intros c Hc.
  apply in_map_iff in Hc. destruct Hc as (r & <- & Hin).
  apply in_map_iff in Hin. destruct Hin as (x & <- & Hx).
  eexists. split; [reflexivity|].
  apply radius_value_bounds; [assumption|].
  now apply norm_value_bounds.
Qed.

(** ** Batches of equal values *)

Lemma norm_value_log_flat (w : list R) (v x : R) :
  (forall y, In y w -> y = v) -> In x w ->
  norm_value "log" w x = 0.
Proof.
  intros Hall Hx.
  assert (Hne : w <> []) by (intros ->; inversion Hx).
  destruct (min_of_spec w Hne) as (m & Hm & Hmin & _).
  unfold norm_value. simpl String.eqb. rewrite Hm.
  destruct (max_of_spec (map (fun y => ln (1 + (y - m))) w)) as (L & HL & HLin & _).
  { intro E. apply map_eq_nil in E. contradiction. }
  rewrite HL.
  apply in_map_iff in HLin. destruct HLin as (y & HyL & Hy).
  rewrite (Hall y Hy), (Hall m Hmin) in HyL.
  replace (1 + (v - v)) with 1 in HyL by lra. rewrite ln_1 in HyL.
  subst L. rbool; [lra | reflexivity].
Qed.

Lemma norm_value_linear_flat (scale : string) (w : list R) (v x : R) :
  String.eqb scale "log" = false ->
  (forall y, In y w -> y = v) -> In x w ->
  norm_value scale w x = 1 / 2.
Proof.
  intros Hs Hall Hx.
  assert (Hne : w <> []) by (intros ->; inversion Hx).
  destruct (min_of_spec w Hne) as (m & Hm & Hmin & _).
  destruct (max_of_spec w Hne) as (M & HM & HMin & _).
  unfold norm_value. rewrite Hs, Hm, HM.
  rewrite (Hall m Hmin), (Hall M HMin).
  rbool; [lra | reflexivity].
Qed.

Lemma imputed_flat (series : list cell) (v : R) :
  (forall c, In c (impute (to_numeric series)) -> c = Some v) ->
  forall x, In x (imputed series) -> x = v.
Proof.
  intros Hall x Hx.
  assert (E : Some x = Some v).
  { apply Hall. rewrite impute_to_numeric. now apply in_map. }
  now injection E.
Qed.

Lemma clipped_flat (u : list R) (clip_pct v : R) :
  (forall x, In x u -> x = v) ->
  forall y, In y (clipped u clip_pct) ->
            y = Series.clip_value (winsor_bounds u clip_pct) v.
Proof.
  intros Hall y Hy. unfold clipped in Hy.
  apply in_map_iff in Hy. destruct Hy as (x & <- & Hx).
  now rewrite (Hall x Hx).
Qed.

Lemma map_const_in {A B : Type} (f : A -> B) (b : B) (l : list A) :
  (forall a, In a l -> f a = b) -> map f l = map (fun _ => b) l.
Proof. intro H. now apply map_ext_in. Qed.

Lemma compute_radius_flat (series : list cell) (scale : string)
    (min_r max_r clip_pct v n : R) :
  (forall c, In c (impute (to_numeric series)) -> c = Some v) ->
  (forall w x, (forall y, In y w -> y = Series.clip_value
                                     (winsor_bounds (imputed series) clip_pct) v) ->
               In x w -> norm_value scale w x = n) ->
  compute_radius_from_series series scale min_r max_r clip_pct
  = map (fun _ => Some (radius_value min_r max_r n)) series.
Proof.
  intros Hall Hn. rewrite compute_radius_cells.
  pose proof (clipped_flat _ clip_pct v (imputed_flat series v Hall)) as Hw.
  rewrite (map_const_in _ (radius_value min_r max_r n)).
  - unfold clipped, imputed. rewrite !map_map. reflexivity.
  - intros x Hx. f_equal. now apply Hn.
Qed.

(** C2: when all values of the batch are equal after coercion and
    imputation, the log scale gives [min_r] at every position. *)
Theorem all_equal_log_gives_min_r (series : list cell)
    (min_r max_r clip_pct v : R) :
  (forall c, In c (impute (to_numeric series)) -> c = Some v) ->
  compute_radius_from_series series "log" min_r max_r clip_pct
  = map (fun _ => Some min_r) series.
Proof.
  intros Hall.
  rewrite (compute_radius_flat series "log" min_r max_r clip_pct v 0 Hall).
  - unfold radius_value. apply map_ext. intros _. f_equal. lra.
  - intros w x Hw Hx. now apply norm_value_log_flat with (v := Series.clip_value
      (winsor_bounds (imputed series) clip_pct) v).
Qed.

(** C3: when all values of the batch are equal after coercion and
    imputation, the linear scale gives the midpoint
    [(min_r + max_r) / 2] at every position: the normalised score is
    1/2, not 0. *)
Theorem all_equal_linear_gives_midpoint (series : list cell)
    (min_r max_r clip_pct v : R) :
  (forall c, In c (impute (to_numeric series)) -> c = Some v) ->
  normalize (if clip_enabled clip_pct
             then winsorize (impute (to_numeric series)) clip_pct
             else impute (to_numeric series)) "linear"
  = map (fun _ => Some (1 / 2)) series
  /\ compute_radius_from_series series "linear" min_r max_r clip_pct
     = map (fun _ => Some ((min_r + max_r) / 2)) series.
Proof.
  intros Hall.
  assert (Hflat : forall w x,
             (forall y, In y w -> y = Series.clip_value
                (winsor_bounds (imputed series) clip_pct) v) ->
             In x w -> norm_value "linear" w x = 1 / 2).
  { intros w x Hw Hx. now apply norm_value_linear_flat with (v := Series.clip_value
      (winsor_bounds (imputed series) clip_pct) v). }
  split.
  - rewrite impute_to_numeric, winsorize_map_Some, normalize_map_Some.
    pose proof (clipped_flat _ clip_pct v (imputed_flat series v Hall)) as Hw.
    rewrite (map_const_in _ (1 / 2)).
    + unfold clipped, imputed. rewrite !map_map. reflexivity.
    + intros x Hx. now apply Hflat.
  - rewrite (compute_radius_flat series "linear" min_r max_r clip_pct v (1 / 2) Hall Hflat).
    unfold radius_value. apply map_ext. intros _. f_equal. lra.
Qed.

(** ** Position by position *)

Lemma compute_radius_map (series : list cell) (scale : string)
    (min_r max_r clip_pct : R) :
  compute_radius_from_series series scale min_r max_r clip_pct
  = map (cell_radius series scale min_r max_r clip_pct) series.
Proof.
  rewrite compute_radius_cells. unfold cell_radius.
  generalize (norm_value scale (clipped (imputed series) clip_pct)). intro N.
  unfold clipped.
  generalize (winsor_bounds (imputed series) clip_pct). intro b.
  unfold imputed. rewrite !map_map. reflexivity.
Qed.

Lemma compute_radius_nth (series : list cell) (scale : string)
    (min_r max_r clip_pct : R) (i : nat) :
  nth_error (compute_radius_from_series series scale min_r max_r clip_pct) i
  = option_map (cell_radius series scale min_r max_r clip_pct)
               (nth_error series i).
Proof. rewrite compute_radius_map. apply nth_error_map. Qed.

(** C9: the result has the length of the input and its cell at
    position i is the radius of the input cell at position i. *)
Theorem output_parallel_to_input (series : list cell) (scale : string)
    (min_r max_r clip_pct : R) :
  List.length (compute_radius_from_series series scale min_r max_r clip_pct)
  = List.length series
  /\ forall i,
       nth_error (compute_radius_from_series series scale min_r max_r clip_pct) i
       = option_map (cell_radius series scale min_r max_r clip_pct)
                    (nth_error series i).
Proof.
  split.
  - rewrite compute_radius_map. apply length_map.
  - intro i. apply compute_radius_nth.
Qed.

(** C7: the empty batch gives the empty result; the statistics of the
    empty series are NaN and no operation fails on them. *)
Theorem empty_batch_gives_empty (scale : string) (min_r max_r clip_pct : R) :
  compute_radius_from_series [] scale min_r max_r clip_pct = [].
Proof.
  unfold compute_radius_from_series, winsorize, normalize.
  destruct (clip_enabled clip_pct), (String.eqb scale "log"); reflexivity.
Qed.

(** C8: a scale other than "log" is handled by the linear branch,
    whatever the string is. *)
Theorem other_scale_is_linear (series : list cell) (scale : string)
    (min_r max_r clip_pct : R) :
  scale <> "log"%string ->
  compute_radius_from_series series scale min_r max_r clip_pct
  = compute_radius_from_series series "linear" min_r max_r clip_pct.
Proof.
  intro Hs. apply String.eqb_neq in Hs.
  unfold compute_radius_from_series, normalize.
  rewrite Hs. reflexivity.
Qed.

Lemma clip_enabled_false (clip_pct : R) :
  ~ (0 < clip_pct < 50) -> clip_enabled clip_pct = false.
Proof.
  intro H. unfold clip_enabled, truthy. rbool; simpl; try reflexivity. lra.
Qed.

Lemma clip_enabled_true (clip_pct : R) :
  0 < clip_pct < 50 -> clip_enabled clip_pct = true.
Proof.
  intro H. unfold clip_enabled, truthy. rbool; simpl; try reflexivity; lra.
Qed.

Lemma without_clipping_eq (series : list cell) (scale : string)
    (min_r max_r clip_pct : R) :
  clip_enabled clip_pct = false ->
  compute_radius_from_series series scale min_r max_r clip_pct
  = compute_radius_without_clipping series scale min_r max_r.
Proof.
  intro E.
  unfold compute_radius_from_series, compute_radius_without_clipping.
  rewrite E. reflexivity.
Qed.

(** C6: a clip_pct outside the open interval (0, 50), such as 0 or 60,
    gives the result of the function without its clipping step. *)
Theorem clip_disabled_outside_range (series : list cell) (scale : string)
    (min_r max_r clip_pct : R) :
  ~ (0 < clip_pct < 50) ->
  compute_radius_from_series series scale min_r max_r clip_pct
  = compute_radius_without_clipping series scale min_r max_r.
Proof.
  intro H. apply without_clipping_eq. now apply clip_enabled_false.
Qed.

(** ** Imputation *)

Lemma imputed_nth (series : list cell) (i : nat) (x : R) :
  nth_error (impute (to_numeric series)) i = Some (Some x) ->
  exists c, nth_error series i = Some c
            /\ imputed_value (fill_value series) c = x.
Proof.
  rewrite impute_to_numeric. unfold imputed. rewrite map_map, nth_error_map.
  destruct (nth_error series i) as [c|]; simpl; [|discriminate].
  intro E. exists c. split; [reflexivity | congruence].
Qed.

Lemma imputed_fill_missing (series : list cell) :
  imputed (map (fill_missing (fill_value series)) series) = imputed series.
Proof.
  unfold imputed. rewrite map_map.
  apply map_ext. intros [x|]; reflexivity.
Qed.

(** C4: a missing cell is replaced by the median of the numbers of its
    batch, or by 0 when the batch has no number; so it gets the radius
    of a cell of the same batch that holds that median, and the batch
    with the median written into its missing cells gives the same
    result. *)
Theorem missing_cell_imputed_by_median (series : list cell) (scale : string)
    (min_r max_r clip_pct : R) :
  let m := match Series.median_of (numbers series) with
           | Some med => med
           | None => 0
           end in
  let out := compute_radius_from_series series scale min_r max_r clip_pct in
  impute (to_numeric series)
  = map (fun c => match c with Number x => Some x | Missing => Some m end) series
  /\ (numbers series = [] -> m = 0)
  /\ (forall i j,
         nth_error series i = Some Missing ->
         nth_error series j = Some (Number m) ->
         nth_error out i = nth_error out j)
  /\ compute_radius_from_series (map (fill_missing m) series)
       scale min_r max_r clip_pct = out.
Proof.
  intros m out. subst out.
  change m with (fill_value series).
  repeat split.
  - rewrite impute_to_numeric. unfold imputed. rewrite map_map.
    apply map_ext. intros [x|]; reflexivity.
  - intro E. unfold fill_value. rewrite E. reflexivity.
  - intros i j Hi Hj. rewrite !compute_radius_nth, Hi, Hj. reflexivity.
  - rewrite !compute_radius_cells, imputed_fill_missing. reflexivity.
Qed.

(** ** Monotonicity, in exact arithmetic *)

(** Read in exact arithmetic on finite cells, with [min_r <= max_r],
    if the coerced and imputed value at position i is at most the one
    at position j, the radius at i is at most the radius at j. *)
Theorem radius_monotone (series : list cell) (scale : string)
    (min_r max_r clip_pct : R) (i j : nat) (x y : R) :
  min_r <= max_r ->
  nth_error (impute (to_numeric series)) i = Some (Some x) ->
  nth_error (impute (to_numeric series)) j = Some (Some y) ->
  x <= y ->
  exists r s,
    nth_error (compute_radius_from_series series scale min_r max_r clip_pct) i
    = Some (Some r)
    /\ nth_error (compute_radius_from_series series scale min_r max_r clip_pct) j
       = Some (Some s)
    /\ r <= s.
Proof.
  intros Hr Hi Hj Hxy.
  destruct (imputed_nth _ _ _ Hi) as (ci & Hci & Hx).
  destruct (imputed_nth _ _ _ Hj) as (cj & Hcj & Hy).
  rewrite !compute_radius_nth, Hci, Hcj. unfold cell_radius. simpl.
  do 2 eexists. split; [reflexivity|]. split; [reflexivity|].
  rewrite Hx, Hy.
  apply radius_value_mono; [assumption|].
  apply norm_value_mono.
  - unfold clipped. apply in_map. unfold imputed.
    rewrite <- Hx. apply in_map. eapply nth_error_In. exact Hci.
  - apply clip_value_mono; [apply winsor_bounds_ordered | assumption].
Qed.

(** ** Order statistics

    [sort] sorts, so the interpolated quantile grows with q; the two
    bounds of the winsorization are therefore in order as computed and
    [clip] never has to exchange them. *)

Lemma insert_Forall (P : R -> Prop) (x : R) (l : list R) :
  P x -> Forall P l -> Forall P (Series.insert x l).
Proof.
  intros Hx Hl. induction Hl as [|y l Hy Hl IH]; simpl.
  - constructor; [assumption | constructor].
  - destruct (Rle_dec x y); repeat constructor; assumption.
Qed.

Lemma insert_sorted (x : R) (l : list R) :
  StronglySorted Rle l -> StronglySorted Rle (Series.insert x l).
Proof.
  induction 1 as [|y l Hs IH Hy]; simpl.
  - repeat constructor.
  - destruct (Rle_dec x y) as [Hxy|Hxy].
    + constructor; [now constructor|].
      constructor; [assumption|].
      eapply Forall_impl; [|exact Hy]. intros z Hz. simpl in Hz. lra.
    + constructor; [assumption|].
      apply insert_Forall; [lra | assumption].
Qed.

Lemma sort_sorted (l : list R) : StronglySorted Rle (Series.sort l).
Proof.
  induction l as [|x l IH]; simpl; [constructor | now apply insert_sorted].
Qed.

Lemma insert_perm (x : R) (l : list R) : Permutation (x :: l) (Series.insert x l).
Proof.
  induction l as [|y l IH]; simpl; [reflexivity|].
  destruct (Rle_dec x y); [reflexivity|].
  rewrite perm_swap. now constructor.
Qed.

Lemma sort_perm (l : list R) : Permutation l (Series.sort l).
Proof.
  induction l as [|x l IH]; simpl; [constructor|].
  rewrite <- insert_perm. now constructor.
Qed.

Lemma sorted_nth (a : list R) (i j : nat) :
  StronglySorted Rle a -> (i <= j < List.length a)%nat ->
  nth i a 0 <= nth j a 0.
Proof.
  intro Hs. revert i j.
  induction Hs as [|x a Hs IH Hx]; intros i j [Hij Hj]; simpl in Hj; [lia|].
  destruct j as [|j]; [replace i with 0%nat by lia; apply Rle_refl|].
  destruct i as [|i]; simpl.
  - rewrite Forall_forall in Hx. apply Hx. apply nth_In. lia.
  - apply IH. lia.
Qed.

Lemma interp_mono (a : list R) (N z z' : nat) (g g' : R) :
  StronglySorted Rle a -> List.length a = S N ->
  0 <= g < 1 -> 0 <= g' < 1 ->
  INR z + g <= INR z' + g' -> INR z' + g' <= INR N ->
  nth z a 0 + (nth (Nat.min (z + 1) N) a 0 - nth z a 0) * g
  <= nth z' a 0 + (nth (Nat.min (z' + 1) N) a 0 - nth z' a 0) * g'.
Proof.
  intros Hs Hlen Hg Hg' Hle HN.
  assert (Hzz : (z <= z')%nat).
  { apply INR_le. destruct (le_lt_dec z z') as [H|H]; [now apply le_INR|].
    assert (H1 : (S z' <= z)%nat) by lia.
    apply le_INR in H1. rewrite S_INR in H1. lra. }
  assert (Hz'N : (z' <= N)%nat) by (apply INR_le; lra).
  assert (Hd : forall k, (k <= N)%nat ->
                 nth k a 0 <= nth (Nat.min (k + 1) N) a 0).
  { intros k Hk. apply sorted_nth; [assumption | lia]. }
  pose proof (Hd z ltac:(lia)) as Hdz.
  pose proof (Hd z' Hz'N) as Hdz'.
  destruct (Nat.eq_dec z z') as [<-|Hne].
  - assert (g <= g') by lra. nra.
  - assert (Hstep : nth (Nat.min (z + 1) N) a 0 <= nth z' a 0).
    { apply sorted_nth; [assumption | lia]. }
    nra.
Qed.

Lemma Int_part_nonneg (r : R) : 0 <= r -> (0 <= Int_part r)%Z.
Proof.
  intro H. destruct (base_Int_part r) as [_ H2].
  assert (H3 : IZR (-1) < IZR (Int_part r)) by lra.
  apply lt_IZR in H3. lia.
Qed.

Lemma floor_index (r : R) :
  0 <= r ->
  INR (Z.to_nat (Int_part r)) = IZR (Int_part r)
  /\ 0 <= r - IZR (Int_part r) < 1.
Proof.
  intro H. split.
  - rewrite INR_IZR_INZ, Z2Nat.id; [reflexivity | now apply Int_part_nonneg].
  - destruct (base_Int_part r) as [H1 H2]. lra.
Qed.

Lemma quantile_of_mono (l : list R) (q q' lo hi : R) :
  0 <= q <= q' -> q' <= 1 ->
  Series.quantile_of l q = Some lo ->
  Series.quantile_of l q' = Some hi ->
  lo <= hi.
Proof.
  intros Hq Hq'. unfold Series.quantile_of.
  pose proof (sort_sorted l) as Hs.
  destruct (Series.sort l) as [|x a]; [discriminate|].
  replace (List.length (x :: a) - 1)%nat with (List.length a) by (simpl; lia).
  intros [= <-] [= <-].
  pose proof (pos_INR (List.length a)) as HN.
  assert (Hh : 0 <= INR (List.length a) * q) by (apply Rmult_le_pos; lra).
  assert (Hh' : 0 <= INR (List.length a) * q') by (apply Rmult_le_pos; lra).
  destruct (floor_index _ Hh) as [Ez Hg].
  destruct (floor_index _ Hh') as [Ez' Hg'].
  set (h := INR (List.length a) * q) in *.
  set (h' := INR (List.length a) * q') in *.
  apply (interp_mono (x :: a) (List.length a)
           (Z.to_nat (Int_part h)) (Z.to_nat (Int_part h'))
           (h - IZR (Int_part h)) (h' - IZR (Int_part h')));
    try assumption; try reflexivity.
  - rewrite Ez, Ez'. unfold h, h'. nra.
  - rewrite Ez'. unfold h'. nra.
Qed.

Lemma winsor_bounds_in_order (v : list R) (clip_pct : R) :
  0 < clip_pct < 50 ->
  winsor_bounds v clip_pct
  = (Series.quantile_of v (clip_pct / 100),
     Series.quantile_of v (1 - clip_pct / 100)).
Proof.
  intro Hp. unfold winsor_bounds. rewrite clip_enabled_true by assumption.
  destruct (Series.quantile_of v (clip_pct / 100)) as [lo|] eqn:Elo;
    [|reflexivity].
  destruct (Series.quantile_of v (1 - clip_pct / 100)) as [hi|] eqn:Ehi;
    [|reflexivity].
  assert (H : lo <= hi).
  { apply (quantile_of_mono v (clip_pct / 100) (1 - clip_pct / 100));
      try assumption; lra. }
  simpl. now rewrite Rmin_left, Rmax_right.
Qed.

(** ** Evaluating the statistics on given numbers *)

Lemma Int_part_between (r : R) (z : Z) :
  IZR z <= r < IZR z + 1 -> Int_part r = z.
Proof. intros [H1 H2]. symmetry. apply Int_part_spec. split; lra. Qed.

Lemma insert_nil (x : R) : Series.insert x [] = [x].
Proof. reflexivity. Qed.

Lemma insert_le (x y : R) (l : list R) :
  x <= y -> Series.insert x (y :: l) = x :: y :: l.
Proof. intro H. simpl. destruct (Rle_dec x y); [reflexivity | contradiction]. Qed.

Lemma insert_gt (x y : R) (l : list R) :
  y < x -> Series.insert x (y :: l) = y :: Series.insert x l.
Proof. intro H. simpl. destruct (Rle_dec x y); [lra | reflexivity]. Qed.

Ltac sort_eval :=
  unfold Series.sort; cbn [fold_right];
  repeat first
    [ rewrite insert_nil
    | rewrite insert_le by lra
    | rewrite insert_gt by lra ].

Lemma min_of_unique (w : list R) (m : R) :
  In m w -> (forall x, In x w -> m <= x) -> Series.min_of w = Some m.
Proof.
  intros Hin Hle.
  destruct (min_of_spec w) as (m' & Hm' & Hin' & Hle');
    [intros ->; inversion Hin|].
  rewrite Hm'. f_equal. apply Rle_antisym; auto.
Qed.

Lemma max_of_unique (w : list R) (M : R) :
  In M w -> (forall x, In x w -> x <= M) -> Series.max_of w = Some M.
Proof.
  intros Hin Hle.
  destruct (max_of_spec w) as (M' & HM' & Hin' & Hle');
    [intros ->; inversion Hin|].
  rewrite HM'. f_equal. apply Rle_antisym; auto.
Qed.

Lemma clip_value_inside (l u x : R) :
  l <= x <= u -> Series.clip_value (Some l, Some u) x = x.
Proof. intro H. unfold Series.clip_value. simpl. rbool; lra. Qed.

Lemma clip_value_below (l u x : R) :
  x < l -> x <= u -> Series.clip_value (Some l, Some u) x = l.
Proof. intros H1 H2. unfold Series.clip_value. simpl. rbool; lra. Qed.

Lemma clip_value_above (l u x : R) :
  u < x -> Series.clip_value (Some l, Some u) x = u.
Proof. intros H. unfold Series.clip_value. simpl. rbool; lra. Qed.

Lemma clipped_disabled (v : list R) (clip_pct : R) :
  clip_enabled clip_pct = false -> clipped v clip_pct = v.
Proof.
  intro E. unfold clipped, winsor_bounds. rewrite E.
  rewrite <- (map_id v) at 2. apply map_ext. reflexivity.
Qed.

Lemma norm_value_linear_eval (scale : string) (w : list R) (m M x : R) :
  String.eqb scale "log" = false ->
  Series.min_of w = Some m -> Series.max_of w = Some M -> m < M ->
  norm_value scale w x = (x - m) / (M - m).
Proof.
  intros Hs Hm HM Hlt. unfold norm_value. rewrite Hs, Hm, HM.
  rbool; [reflexivity | lra].
Qed.

(** *** The clipping example: 1, 2, 3, 100 with clip_pct = 2 *)

Lemma outlier_sorted : Series.sort [1; 2; 3; 100] = [1; 2; 3; 100].
Proof. sort_eval. reflexivity. Qed.

Lemma outlier_lo :
  Series.quantile_of [1; 2; 3; 100] (2 / 100) = Some (53 / 50).
Proof.
  unfold Series.quantile_of. rewrite outlier_sorted.
  cbn [List.length Nat.sub].
  assert (E : Int_part (INR 3 * (2 / 100)) = 0%Z).
  { apply Int_part_between. cbn [INR]. lra. }
  rewrite E. cbn [Z.to_nat Nat.add Nat.min nth INR]. f_equal. lra.
Qed.

Lemma outlier_hi :
  Series.quantile_of [1; 2; 3; 100] (1 - 2 / 100) = Some (4709 / 50).
Proof.
  unfold Series.quantile_of. rewrite outlier_sorted.
  cbn [List.length Nat.sub].
  assert (E : Int_part (INR 3 * (1 - 2 / 100)) = 2%Z).
  { apply Int_part_between. cbn [INR]. lra. }
  rewrite E. change (Z.to_nat 2) with 2%nat.
  cbn [Nat.add Nat.min nth INR]. f_equal. lra.
Qed.

Lemma outlier_imputed : imputed outlier_batch = [1; 2; 3; 100].
Proof. reflexivity. Qed.

Lemma outlier_clipped :
  clipped [1; 2; 3; 100] 2 = [53 / 50; 2; 3; 4709 / 50].
Proof.
  unfold clipped, winsor_bounds.
  rewrite clip_enabled_true by lra.
  rewrite outlier_lo, outlier_hi. cbn [Series.clip_bounds].
  rewrite Rmin_left, Rmax_right by lra.
  cbn [map].
  rewrite clip_value_below by lra.
  rewrite !clip_value_inside by lra.
  rewrite clip_value_above by lra.
  reflexivity.
Qed.

Lemma outlier_winsorized :
  winsorize (impute (to_numeric outlier_batch)) 2
  = [Some (53 / 50); Some 2; Some 3; Some (4709 / 50)].
Proof.
  pose proof (winsorize_map_Some (imputed outlier_batch) 2) as H.
  rewrite clip_enabled_true in H by lra.
  rewrite impute_to_numeric, H, outlier_imputed, outlier_clipped.
  reflexivity.
Qed.

Lemma outlier_radius_clipped :
  nth 3 (compute_radius_from_series outlier_batch "linear" 1 10 2) NaN = Some 10.
Proof.
  rewrite compute_radius_cells, outlier_imputed, outlier_clipped.
  cbn [map nth]. f_equal.
  rewrite (norm_value_linear_eval _ _ (53 / 50) (4709 / 50)); try lra.
  - unfold radius_value. field.
  - reflexivity.
  - apply min_of_unique; [simpl; auto|].
    intros x [<-|[<-|[<-|[<-|[]]]]]; lra.
  - apply max_of_unique; [simpl; auto|].
    intros x [<-|[<-|[<-|[<-|[]]]]]; lra.
Qed.

Lemma outlier_radius_unclipped :
  nth 3 (compute_radius_without_clipping outlier_batch "linear" 1 10) NaN
  = Some 10.
Proof.
  rewrite <- (without_clipping_eq _ _ _ _ 0) by (apply clip_enabled_false; lra).
  rewrite compute_radius_cells, outlier_imputed.
  rewrite clipped_disabled by (apply clip_enabled_false; lra).
  cbn [map nth]. f_equal.
  rewrite (norm_value_linear_eval _ _ 1 100); try lra.
  - unfold radius_value. field.
  - reflexivity.
  - apply min_of_unique; [simpl; auto|].
    intros x [<-|[<-|[<-|[<-|[]]]]]; lra.
  - apply max_of_unique; [simpl; auto|].
    intros x [<-|[<-|[<-|[<-|[]]]]]; lra.
Qed.

(** C5, as the specification words it, does not hold: the radius of the
    entry 100 is not strictly below the one the unclipped linear
    formula gives. *)
Lemma clipped_outlier_radius_not_smaller :
  ~ float_lt
      (nth 3 (compute_radius_from_series outlier_batch "linear" 1 10 2) NaN)
      (nth 3 (compute_radius_without_clipping outlier_batch "linear" 1 10) NaN).
Proof.
  rewrite outlier_radius_clipped, outlier_radius_unclipped. simpl. lra.
Qed.

(** C5, amended: for the batch 1, 2, 3, 100 with clip_pct = 2, linear
    scale, min_r = 1 and max_r = 10, winsorization lowers the value of
    the entry 100 to 94.18, yet that entry is still the largest of the
    batch and its radius is 10, the radius the unclipped linear formula
    gives as well. *)
Theorem clipped_outlier_keeps_max_radius :
  nth 3 (winsorize (impute (to_numeric outlier_batch)) 2) NaN
  = Some (4709 / 50)
  /\ 4709 / 50 < 100
  /\ nth 3 (compute_radius_from_series outlier_batch "linear" 1 10 2) NaN
     = Some 10
  /\ nth 3 (compute_radius_without_clipping outlier_batch "linear" 1 10) NaN
     = Some 10.
Proof.
  repeat split.
  - rewrite outlier_winsorized. reflexivity.
  - lra.
  - exact outlier_radius_clipped.
  - exact outlier_radius_unclipped.
Qed.

(** *** The imputation example: 10, 20, missing, 30 *)

Lemma gap_median : Series.median_of (numbers gap_batch) = Some 20.
Proof.
  unfold Series.median_of. cbn [numbers gap_batch].
  replace (Series.sort [10; 20; 30]) with [10; 20; 30]
    by (sort_eval; reflexivity).
  reflexivity.
Qed.

Lemma gap_imputed :
  impute (to_numeric gap_batch) = [Some 10; Some 20; Some 20; Some 30].
Proof.
  rewrite impute_to_numeric. unfold imputed, fill_value.
  rewrite gap_median. reflexivity.
Qed.

(** *** Equal numbers with a gap: 5, 5, missing, 5 *)

Lemma flat_median : Series.median_of (numbers flat_batch) = Some 5.
Proof.
  unfold Series.median_of. cbn [numbers flat_batch].
  replace (Series.sort [5; 5; 5]) with [5; 5; 5] by (sort_eval; reflexivity).
  reflexivity.
Qed.

Lemma flat_imputed :
  forall c, In c (impute (to_numeric flat_batch)) -> c = Some 5.
Proof.
  rewrite impute_to_numeric. unfold imputed, fill_value.
  rewrite flat_median. simpl. intuition.
Qed.

(** ** The theorems at given batches *)

Lemma all_equal_log_witness :
  compute_radius_from_series flat_batch "log" 3 16 2
  = [Some 3; Some 3; Some 3; Some 3].
Proof.
  exact (all_equal_log_gives_min_r flat_batch 3 16 2 5 flat_imputed).
Defined.

Lemma all_equal_linear_witness :
  compute_radius_from_series flat_batch "linear" 3 16 2
  = [Some ((3 + 16) / 2); Some ((3 + 16) / 2);
     Some ((3 + 16) / 2); Some ((3 + 16) / 2)].
Proof.
  exact (proj2 (all_equal_linear_gives_midpoint flat_batch 3 16 2 5 flat_imputed)).
Defined.

Lemma missing_cell_witness :
  nth_error (compute_radius_from_series gap_batch "log" 3 16 2) 2
  = nth_error (compute_radius_from_series gap_batch "log" 3 16 2) 1.
Proof.
  destruct (missing_cell_imputed_by_median gap_batch "log" 3 16 2)
    as (_ & _ & H & _).
  apply H; [reflexivity|].
  rewrite gap_median. reflexivity.
Defined.

Lemma clip_disabled_witness :
  compute_radius_from_series gap_batch "log" 3 16 60
  = compute_radius_without_clipping gap_batch "log" 3 16
  /\ compute_radius_from_series gap_batch "log" 3 16 0
     = compute_radius_without_clipping gap_batch "log" 3 16.
Proof.
  split; apply clip_disabled_outside_range; lra.
Defined.

Lemma other_scale_witness :
  compute_radius_from_series gap_batch "sqrt" 3 16 2
  = compute_radius_from_series gap_batch "linear" 3 16 2.
Proof.
  apply other_scale_is_linear. discriminate.
Defined.

(** ** Further properties of the radius computation *)

(** *** Minimum and maximum, read back *)



(** *** Degenerate batches *)

Lemma numbers_all_missing (series : list cell) :
  (forall c, In c series -> c = Missing) -> numbers series = [].
Proof.
  induction series as [|c l IH]; intro H; [reflexivity|].
  rewrite (H c (or_introl eq_refl)). simpl. apply IH.
  intros c' Hc'. apply H. now right.
Qed.

Lemma compute_radius_flat_any (series : list cell) (scale : string)
    (min_r max_r clip_pct v : R) :
  (forall c, In c (impute (to_numeric series)) -> c = Some v) ->
  compute_radius_from_series series scale min_r max_r clip_pct
  = map (fun _ => Some (flat_radius scale min_r max_r)) series.
Proof.
  intro Hall. unfold flat_radius.
  destruct (String.eqb scale "log") eqn:Es.
  - apply String.eqb_eq in Es. subst scale.
    rewrite (compute_radius_flat series "log" min_r max_r clip_pct v 0 Hall).
    + unfold radius_value. apply map_ext. intros _. f_equal. lra.
    + intros w x Hw Hx. now apply norm_value_log_flat with (v := Series.clip_value
        (winsor_bounds (imputed series) clip_pct) v).
  - rewrite (compute_radius_flat series scale min_r max_r clip_pct v (1 / 2) Hall).
    + unfold radius_value. apply map_ext. intros _. f_equal. lra.
    + intros w x Hw Hx. now apply norm_value_linear_flat with (v := Series.clip_value
        (winsor_bounds (imputed series) clip_pct) v).
Qed.

(** X4: A batch without any number is imputed with 0 everywhere, so every
    radius is [min_r] on the log scale and the midpoint of
    [min_r] and [max_r] on any other scale. *)
Theorem all_missing_batch_radius (series : list cell) (scale : string)
    (min_r max_r clip_pct : R) :
  (forall c, In c series -> c = Missing) ->
  impute (to_numeric series) = map (fun _ => Some 0) series
  /\ compute_radius_from_series series scale min_r max_r clip_pct
     = map (fun _ => Some (if String.eqb scale "log"
                           then min_r else (min_r + max_r) / 2)) series.
Proof.
  intro Hall.
  assert (E : impute (to_numeric series) = map (fun _ => Some 0) series).
  { rewrite impute_to_numeric. unfold imputed, fill_value.
    rewrite (numbers_all_missing series Hall). rewrite map_map.
    apply map_ext_in. intros c Hc. now rewrite (Hall c Hc). }
  split; [exact E|].
  apply (compute_radius_flat_any series scale min_r max_r clip_pct 0).
  rewrite E. intros c Hc. apply in_map_iff in Hc. now destruct Hc as (_ & <- & _).
Qed.

(** X5: A batch of one cell, a number or not, gets [min_r] on the log scale
    and the midpoint on any other scale. *)
Theorem single_cell_radius (c : cell) (scale : string)
    (min_r max_r clip_pct : R) :
  compute_radius_from_series [c] scale min_r max_r clip_pct
  = [Some (if String.eqb scale "log" then min_r else (min_r + max_r) / 2)].
Proof.
  apply (compute_radius_flat_any [c] scale min_r max_r clip_pct
           (imputed_value (fill_value [c]) c)).
  rewrite impute_to_numeric. intros c' [<-|[]]. reflexivity.
Qed.

(** *** Sorting keeps the elements *)



(** *** The order of the rows does not matter *)

Lemma sorted_perm_eq (a b : list R) :
  StronglySorted Rle a -> StronglySorted Rle b -> Permutation a b -> a = b.
Proof.
  intros Ha. revert b.
  induction Ha as [|x a Ha IH Hx]; intros b Hb Hp.
  - apply Permutation_nil in Hp. now subst.
  - destruct Hb as [|y b Hb Hy].
    + apply Permutation_sym, Permutation_nil in Hp. discriminate.
    + rewrite Forall_forall in Hx, Hy.
      assert (Hxy : x = y).
      { apply Rle_antisym.
        - assert (Hin : In y (x :: a))
            by (apply (Permutation_in y (Permutation_sym Hp)); now left).
          destruct Hin as [->|Hin]; [apply Rle_refl | now apply Hx].
        - assert (Hin : In x (y :: b))
            by (apply (Permutation_in x Hp); now left).
          destruct Hin as [->|Hin]; [apply Rle_refl | now apply Hy]. }
      subst y. f_equal. apply IH; [assumption|].
      now apply Permutation_cons_inv in Hp.
Qed.

Lemma sort_perm_eq (l l' : list R) :
  Permutation l l' -> Series.sort l = Series.sort l'.
Proof.
  intro Hp. apply sorted_perm_eq; try apply sort_sorted.
  rewrite <- (sort_perm l), <- (sort_perm l'). exact Hp.
Qed.

Lemma numbers_perm (s s' : list cell) :
  Permutation s s' -> Permutation (numbers s) (numbers s').
Proof.
  induction 1 as [|c l l' _ IH|c c' l|l l' l'' _ IH1 _ IH2].
  - constructor.
  - destruct c; simpl; [now constructor | assumption].
  - destruct c, c'; simpl; try reflexivity. apply perm_swap.
  - now transitivity (numbers l').
Qed.

Lemma median_of_perm (l l' : list R) :
  Permutation l l' -> Series.median_of l = Series.median_of l'.
Proof. intro H. unfold Series.median_of. now rewrite (sort_perm_eq l l' H). Qed.

Lemma quantile_of_perm (l l' : list R) (q : R) :
  Permutation l l' -> Series.quantile_of l q = Series.quantile_of l' q.
Proof. intro H. unfold Series.quantile_of. now rewrite (sort_perm_eq l l' H). Qed.

Lemma min_of_perm (w w' : list R) :
  Permutation w w' -> Series.min_of w = Series.min_of w'.
Proof.
  intro Hp. destruct w as [|x w].
  - apply Permutation_nil in Hp. now subst.
  - destruct (min_of_spec (x :: w)) as (m & Hm & Hin & Hle); [discriminate|].
    rewrite Hm. symmetry. apply min_of_unique.
    + now apply (Permutation_in m Hp).
    + intros y Hy. apply Hle. now apply (Permutation_in y (Permutation_sym Hp)).
Qed.

Lemma max_of_perm (w w' : list R) :
  Permutation w w' -> Series.max_of w = Series.max_of w'.
Proof.
  intro Hp. destruct w as [|x w].
  - apply Permutation_nil in Hp. now subst.
  - destruct (max_of_spec (x :: w)) as (M & HM & Hin & Hle); [discriminate|].
    rewrite HM. symmetry. apply max_of_unique.
    + now apply (Permutation_in M Hp).
    + intros y Hy. apply Hle. now apply (Permutation_in y (Permutation_sym Hp)).
Qed.

Lemma fill_value_perm (s s' : list cell) :
  Permutation s s' -> fill_value s = fill_value s'.
Proof.
  intro H. unfold fill_value.
  now rewrite (median_of_perm _ _ (numbers_perm _ _ H)).
Qed.

Lemma imputed_perm (s s' : list cell) :
  Permutation s s' -> Permutation (imputed s) (imputed s').
Proof.
  intro H. unfold imputed. rewrite (fill_value_perm s s' H).
  now apply Permutation_map.
Qed.

Lemma winsor_bounds_perm (v v' : list R) (clip_pct : R) :
  Permutation v v' -> winsor_bounds v clip_pct = winsor_bounds v' clip_pct.
Proof.
  intro H. unfold winsor_bounds.
  now rewrite !(quantile_of_perm v v' _ H).
Qed.

Lemma clipped_perm (v v' : list R) (clip_pct : R) :
  Permutation v v' -> Permutation (clipped v clip_pct) (clipped v' clip_pct).
Proof.
  intro H. unfold clipped. rewrite (winsor_bounds_perm v v' _ H).
  now apply Permutation_map.
Qed.

Lemma norm_value_perm (scale : string) (w w' : list R) (x : R) :
  Permutation w w' -> norm_value scale w x = norm_value scale w' x.
Proof.
  intro H. unfold norm_value.
  rewrite (min_of_perm w w' H), (max_of_perm w w' H).
  destruct (Series.min_of w') as [m|]; [|reflexivity].
  now rewrite (max_of_perm _ _ (Permutation_map (fun y => ln (1 + (y - m))) H)).
Qed.

Lemma cell_radius_perm (s s' : list cell) (scale : string)
    (min_r max_r clip_pct : R) (c : cell) :
  Permutation s s' ->
  cell_radius s scale min_r max_r clip_pct c
  = cell_radius s' scale min_r max_r clip_pct c.
Proof.
  intro H. unfold cell_radius.
  rewrite (fill_value_perm s s' H).
  rewrite (winsor_bounds_perm _ _ clip_pct (imputed_perm s s' H)).
  now rewrite (norm_value_perm scale _ _ _
                 (clipped_perm _ _ clip_pct (imputed_perm s s' H))).
Qed.

(** X7: Reordering the batch reorders the radii in the same way: a cell
    gets the same radius wherever it stands, since every statistic of
    the batch is independent of the order of the rows. *)
Theorem radius_independent_of_row_order (series series' : list cell)
    (scale : string) (min_r max_r clip_pct : R) :
  Permutation series series' ->
  Permutation (compute_radius_from_series series scale min_r max_r clip_pct)
              (compute_radius_from_series series' scale min_r max_r clip_pct)
  /\ forall i j c,
       nth_error series i = Some c -> nth_error series' j = Some c ->
       nth_error (compute_radius_from_series series scale min_r max_r clip_pct) i
       = nth_error (compute_radius_from_series series' scale min_r max_r clip_pct) j.
Proof.
  intro Hp. split.
  - rewrite !compute_radius_map.
    rewrite (map_ext _ _ (fun c => cell_radius_perm series series' scale
                                     min_r max_r clip_pct c Hp)).
    now apply Permutation_map.
  - intros i j c Hi Hj. rewrite !compute_radius_nth, Hi, Hj. simpl.
    f_equal. now apply cell_radius_perm.
Qed.


(** *** Imputation keeps the range of the batch *)






(** ** The page script: escaping *)

Lemma string_app_assoc (s t u : string) :
  ((s ++ t) ++ u = s ++ (t ++ u))%string.
Proof. induction s as [|a s IH]; simpl; [reflexivity | now rewrite IH]. Qed.

Lemma replace_char_app (old : ascii) (new s t : string) :
  replace_char old new (s ++ t)
  = (replace_char old new s ++ replace_char old new t)%string.
Proof.
  induction s as [|a s IH]; simpl; [reflexivity|].
  rewrite IH. destruct (Ascii.eqb a old); simpl; [|reflexivity].
  now rewrite string_app_assoc.
Qed.

Lemma html_escape_app (s t : string) :
  html_escape (s ++ t) = (html_escape s ++ html_escape t)%string.
Proof. unfold html_escape. now rewrite !replace_char_app. Qed.

Lemma count_char_app (c : ascii) (s t : string) :
  count_char c (s ++ t) = (count_char c s + count_char c t)%nat.
Proof. induction s as [|a s IH]; simpl; [reflexivity | rewrite IH; lia]. Qed.

(** What [html_escape] makes of one character. *)
Lemma html_escape_cons (a : ascii) (s : string) :
  html_escape (String a s)
  = (html_escape (String a EmptyString) ++ html_escape s)%string.
Proof. exact (html_escape_app (String a EmptyString) s). Qed.

Lemma html_escape_char_clean (a c : ascii) :
  is_markup c = true ->
  count_char c (html_escape (String a EmptyString)) = 0%nat.
Proof.
  unfold is_markup. intro Hc.
  unfold html_escape. simpl replace_char at 5.
  destruct (Ascii.eqb a "&") eqn:E1.
  { repeat (apply orb_true_iff in Hc; destruct Hc as [Hc|Hc]);
      apply Ascii.eqb_eq in Hc; subst c; reflexivity. }
  simpl replace_char at 4. destruct (Ascii.eqb a "<") eqn:E2.
  { repeat (apply orb_true_iff in Hc; destruct Hc as [Hc|Hc]);
      apply Ascii.eqb_eq in Hc; subst c; reflexivity. }
  simpl replace_char at 3. destruct (Ascii.eqb a ">") eqn:E3.
  { repeat (apply orb_true_iff in Hc; destruct Hc as [Hc|Hc]);
      apply Ascii.eqb_eq in Hc; subst c; reflexivity. }
  simpl replace_char at 2. destruct (Ascii.eqb a dquote_char) eqn:E4.
  { repeat (apply orb_true_iff in Hc; destruct Hc as [Hc|Hc]);
      apply Ascii.eqb_eq in Hc; subst c; reflexivity. }
  simpl replace_char. destruct (Ascii.eqb a "'") eqn:E5.
  { repeat (apply orb_true_iff in Hc; destruct Hc as [Hc|Hc]);
      apply Ascii.eqb_eq in Hc; subst c; reflexivity. }
  simpl.
  repeat (apply orb_true_iff in Hc; destruct Hc as [Hc|Hc]);
    apply Ascii.eqb_eq in Hc; subst c;
    rewrite ?E2, ?E3, ?E4, ?E5; reflexivity.
Qed.

Lemma html_escape_clean (s : string) (c : ascii) :
  is_markup c = true -> count_char c (html_escape s) = 0%nat.
Proof.
  intro Hc. induction s as [|a s IH]; [reflexivity|].
  rewrite html_escape_cons, count_char_app, IH.
  now rewrite html_escape_char_clean.
Qed.

Lemma count_char_concat (c : ascii) (sep : string) (ls : list string) :
  count_char c (String.concat sep ls)
  = (list_sum (map (count_char c) ls)
     + (List.length ls - 1) * count_char c sep)%nat.
Proof.
  induction ls as [|l ls IH]; [reflexivity|].
  destruct ls as [|l' ls].
  - simpl. lia.
  - change (String.concat sep (l :: l' :: ls))
      with (l ++ sep ++ String.concat sep (l' :: ls))%string.
    rewrite !count_char_app, IH. simpl. lia.
Qed.

Lemma bold_line_count (label text : string) (c : ascii) :
  is_markup c = true ->
  count_char c (bold_line label text) = count_char c "<b></b>".
Proof.
  intro Hc. unfold bold_line.
  rewrite !count_char_app, !html_escape_clean by assumption.
  unfold is_markup in Hc.
  repeat (apply orb_true_iff in Hc; destruct Hc as [Hc|Hc]);
    apply Ascii.eqb_eq in Hc; subst c; reflexivity.
Qed.

Lemma list_sum_map_const {A : Type} (f : A -> nat) (k : nat) (l : list A) :
  (forall a, In a l -> f a = k) -> list_sum (map f l) = (k * List.length l)%nat.
Proof.
  induction l as [|a l IH]; intro H; simpl; [lia|].
  rewrite (H a (or_introl eq_refl)), IH; [lia|].
  intros b Hb. apply H. now right.
Qed.

Lemma bold_lines_count (r : row) (c : ascii) (cs : list string) :
  is_markup c = true ->
  list_sum (map (count_char c) (map (fun x => bold_line x (str_of r x)) cs))
  = (count_char c "<b></b>" * List.length cs)%nat.
Proof.
  intro Hc. rewrite map_map. apply list_sum_map_const.
  intros a _. now apply bold_line_count.
Qed.

(** X14: Whatever the cells of the row hold, the tooltip has exactly the
    angle brackets of its template, three pairs per shown column and
    two more for the size line, and no quote character: the text of a
    cell cannot add markup to it. *)
Theorem tooltip_markup_is_the_template (cols : list string) (r : row) :
  count_char "<" (tooltip_html cols r)
  = (3 * List.length (display_cols cols) + 2)%nat
  /\ count_char ">" (tooltip_html cols r)
     = (3 * List.length (display_cols cols) + 2)%nat
  /\ count_char dquote_char (tooltip_html cols r) = 0%nat
  /\ count_char "'" (tooltip_html cols r) = 0%nat.
Proof.
  unfold tooltip_html, tooltip_lines.
  repeat split;
    rewrite count_char_concat, map_app, list_sum_app, bold_lines_count
      by reflexivity;
    rewrite length_app, length_map; cbn [map list_sum fold_right];
    rewrite bold_line_count by reflexivity; simpl; lia.
Qed.

(** *** The popup *)

Lemma display_cols_without_stop_name (cols : list string) :
  (List.length (filter (fun c => negb (String.eqb c "StopName"))
                       (display_cols cols))
   + (if has_column cols "StopName" then 1 else 0))%nat
  = List.length (display_cols cols).
Proof.
  unfold display_cols, candidate_cols. cbn [filter].
  destruct (has_column cols "StopID"), (has_column cols "StopName"),
    (has_column cols "Routes"), (has_column cols "Direction"),
    (has_column cols "OnStreet"), (has_column cols "AtStreet"); reflexivity.
Qed.

Lemma popup_lines_length (cols : list string) (r : row) :
  List.length (popup_lines cols r) = (List.length (display_cols cols) + 2)%nat.
Proof.
  unfold popup_lines. rewrite !length_app, length_map.
  pose proof (display_cols_without_stop_name cols) as H.
  destruct (has_column cols "StopName"); simpl in *; lia.
Qed.

Lemma street_view_link_count (r : row) (c : ascii) :
  count_char c (street_view_link r)
  = (count_char c (streetview_url r)
     + count_char c (street_view_link
                       {| lat := 0; lon := 0; streetview_url := EmptyString;
                          size := Missing; str_of := fun _ => EmptyString |}))%nat.
Proof.
  unfold street_view_link. cbn [streetview_url].
  rewrite !count_char_app. simpl. lia.
Qed.

(** X15: The popup has one line per shown column, the stop name being its
    heading instead of a labelled line, then the size line and the
    link.  Every cell text is escaped; the address of the link is
    written as it is, so the angle brackets of the popup are those of
    the template plus those of the address. *)
Theorem popup_markup_is_the_template_and_the_link (cols : list string) (r : row) :
  List.length (popup_lines cols r) = (List.length (display_cols cols) + 2)%nat
  /\ count_char "<" (popup_html cols r)
     = (3 * List.length (display_cols cols) + 5
        + count_char "<" (streetview_url r))%nat
  /\ count_char ">" (popup_html cols r)
     = (3 * List.length (display_cols cols) + 5
        + count_char ">" (streetview_url r))%nat.
Proof.
  split; [apply popup_lines_length|].
  unfold popup_html.
  split; rewrite count_char_concat, popup_lines_length;
    unfold popup_lines;
    rewrite !map_app, !list_sum_app, bold_lines_count by reflexivity;
    pose proof (display_cols_without_stop_name cols) as H;
    cbn [map list_sum fold_right];
    rewrite bold_line_count, street_view_link_count by reflexivity;
    destruct (has_column cols "StopName"); cbn [map list_sum fold_right];
    rewrite ?count_char_app, ?html_escape_clean by reflexivity;
    simpl in *; lia.
Qed.

(** ** The further theorems at given batches *)

Lemma all_missing_batch_witness :
  compute_radius_from_series [Missing; Missing] "log" 3 16 2
  = [Some 3; Some 3].
Proof.
  refine (proj2 (all_missing_batch_radius [Missing; Missing] "log" 3 16 2 _)).
  intros c [<-|[<-|[]]]; reflexivity.
Defined.

Lemma row_order_witness :
  nth_error (compute_radius_from_series [Number 1; Number 2; Missing] "log" 3 16 2) 0
  = nth_error (compute_radius_from_series [Number 2; Number 1; Missing] "log" 3 16 2) 1.
Proof.
  apply (proj2 (radius_independent_of_row_order
                  [Number 1; Number 2; Missing] [Number 2; Number 1; Missing]
                  "log" 3 16 2 (perm_swap _ _ _)) 0%nat 1%nat (Number 1));
    reflexivity.
Defined.


(** ** The function in binary64 at given batches *)

(** C1: the computed radii leave the range.  For the cells 1, inf, 3
    (the texts "1", "inf", "3" after coercion), linear scale, radii 1
    to 10 and no clipping, the radius of the infinite cell is NaN:
    inf - 1 is inf and inf / inf is NaN.  For the cells 1, 2, 3 with
    radii 0.3 to 0.9 the radius of the largest cell is
    0.9000000000000001, above [max_r]. *)
Theorem binary64_radius_leaves_range
    (log1p : PrimFloat.float -> PrimFloat.float)
    (quantile : F64.t -> PrimFloat.float -> PrimFloat.float) :
  F64.compute_radius_from_series log1p quantile infinite_batch "linear" 1 10 0
  = [1; PrimFloat.nan; 1]%float
  /\ nth 2 (F64.compute_radius_from_series log1p quantile plain_batch "linear"
              three_tenths nine_tenths 0) PrimFloat.nan
     = 0x1.ccccccccccccep-1%float
  /\ (nine_tenths <? 0x1.ccccccccccccep-1)%float = true.
Proof. repeat split; vm_compute; reflexivity. Qed.

(** C10: the order of the values is not kept.  For the cells 1, inf, 3,
    linear scale, radii 1 to 10 and no clipping, nothing is imputed,
    the value 3 at position 2 is at most the value inf at position 1,
    and the radius 1 at position 2 is not at most the radius NaN at
    position 1. *)
Theorem binary64_radius_order_broken
    (log1p : PrimFloat.float -> PrimFloat.float)
    (quantile : F64.t -> PrimFloat.float -> PrimFloat.float) :
  let s := F64.impute infinite_batch in
  let out := F64.compute_radius_from_series log1p quantile infinite_batch
               "linear" 1 10 0 in
  s = infinite_batch
  /\ (nth 2 s PrimFloat.nan <=? nth 1 s PrimFloat.nan)%float = true
  /\ nth 2 out PrimFloat.nan = 1%float
  /\ PrimFloat.is_nan (nth 1 out PrimFloat.nan) = true
  /\ (nth 2 out PrimFloat.nan <=? nth 1 out PrimFloat.nan)%float = false.
Proof. repeat split; vm_compute; reflexivity. Qed.
